(** * Ingestion endpoints of [stac_fastapi/pgstac/app.py]

    A shallow embedding of the custom [/parse] router: the synchronous
    handler [POST /parse/file], the background job [process_archive] and the
    trigger [POST /parse/archive].

    The handlers call into the [stac_catalog] package ([parser],
    [gather_reports], [db_util]), which is imported by [app.py] and is kept
    here as three interfaces.  Python exceptions are the left summand of a
    result, and the effects the handlers have (the catalog store, standard
    output, and the order in which the collaborators are called) are threaded
    through an explicit [World].

    Assumptions the interfaces carry: within one run the remote answers the
    same URL with the same content, the parser and the converter are functions
    of their arguments, and only [db_util] is handed the catalog store. *)

From stdpp Require Import gmap strings list fin_maps.

Open Scope string_scope.
Open Scope list_scope.

(** ** Data *)

(** What a collaborator may raise.  [app.py] catches nothing, so the handlers
    only ever pass these on; the constructors follow the error taxonomy of the
    design. *)
Inductive Exception :=
| FetchError (url : string)
| ListingFormatError (url : string)
| MalformedReportError (filename : string) (position : nat)
| ConversionError (url : string)
| StorageError (item_id : string).

(** The STAC item built by the converter; [app.py] reads [stac_item.id] and
    [stac_item.properties].  Property values are kept as their printed form. *)
Module Item.
Record t := mk { id : string; properties : list (string * string) }.
End Item.

(** [class URLPostRequest(BaseModel): url: str] *)
Module URLPostRequest.
Record t := mk { url : string }.
End URLPostRequest.

(** The iterator handed back by [iter_urls_from_archive_page]: each [next]
    yields an item URL, stops, or raises. *)
Inductive Iterator :=
| StopIteration
| Raise (e : Exception)
| Yield (item_url : string) (rest : Iterator).

(** The handlers return a JSON object with string values. *)
Definition Response := list (string * string).

(** Observable steps, in the order they happen. *)
Inductive Event :=
| GetFilenameFromUrl (url : string)
| GetFileContent (url : string)
| ParseTempDrop (file_content filename : string)
| ConvertDropsondeToStacItem (url : string)
| AddItemToCatlog (item_id : string)
| IterUrlsFromArchivePage (url : string)
| ResponseSent (body : Response)
| ErrorResponseSent (raised : Exception).

Record World := mkWorld {
  catalog : gmap string Item.t;
  stdout : list string;
  events : list Event;
}.

(** ** The [stac_catalog] collaborators *)

(** [stac_catalog.parser] *)
Class Parser := {
  DropsondeReport : Type;
  get_filename_from_url : string -> Exception + string;
  parse_temp_drop : string -> string -> Exception + DropsondeReport;
  convert_dropsonde_to_stac_item : DropsondeReport -> string -> Exception + Item.t;
}.

(** [stac_catalog.gather_reports] *)
Class GatherReports := {
  get_file_content : string -> Exception + string;
  iter_urls_from_archive_page : string -> Iterator;
}.

(** [stac_catalog.db_util]: the only collaborator that is handed the store.
    It returns the store it leaves behind and the exception it raised, if
    any. *)
Class DbUtil := {
  add_item_to_catlog : Item.t -> gmap string Item.t -> gmap string Item.t * option Exception;
}.

(** ** Effects: state and exceptions *)

Definition M (A : Type) : Type := World -> World * (Exception + A).

Definition ret {A} (a : A) : M A := fun w => (w, inr a).

Definition bind {A B} (m : M A) (k : A -> M B) : M B :=
  fun w =>
    match m w with
    | (w', inl e) => (w', inl e)
    | (w', inr a) => k a w'
    end.

Notation "'let!' x ':=' m 'in' k" := (bind m (fun x => k))
  (at level 10, x name, m at level 100, k at level 200).
Notation "m ';;;' k" := (bind m (fun _ => k))
  (at level 100, k at level 200, right associativity).

(** A call that touches no state: its result, raised or returned. *)
Definition lift {A} (r : Exception + A) : M A := fun w => (w, r).

Definition emit (ev : Event) : M unit :=
  fun w => (mkWorld (catalog w) (stdout w) (events w ++ [ev]), inr tt).

(** [print(line)] *)
Definition print (line : string) : M unit :=
  fun w => (mkWorld (catalog w) (stdout w ++ [line]) (events w), inr tt).

(** [ch in s] *)
Fixpoint contains (ch : Ascii.ascii) (s : string) : bool :=
  match s with
  | EmptyString => false
  | String c rest => bool_decide (c = ch) || contains ch rest
  end.

Definition single_quote : Ascii.ascii := Ascii.ascii_of_nat 39.
Definition double_quote : Ascii.ascii := Ascii.ascii_of_nat 34.
Definition backslash : Ascii.ascii := Ascii.ascii_of_nat 92.

Definition hex_digit (n : nat) : Ascii.ascii :=
  Ascii.ascii_of_nat (if Nat.ltb n 10 then 48 + n else 87 + n).

(** One character inside [repr]'s quotes: the quote in use and the backslash
    get a backslash, tab, line feed and carriage return their letter, the
    other control characters [\xhh]; the rest stays.  Bytes from 128 on are
    taken to belong to printable text, which [repr] keeps. *)
Definition repr_char (quote ch : Ascii.ascii) : string :=
  let n := Ascii.nat_of_ascii ch in
  if (bool_decide (ch = quote) || bool_decide (ch = backslash))%bool
  then String backslash (String ch EmptyString)
  else if Nat.eqb n 9 then String backslash "t"
  else if Nat.eqb n 10 then String backslash "n"
  else if Nat.eqb n 13 then String backslash "r"
  else if (Nat.ltb n 32 || Nat.eqb n 127)%bool
  then String backslash
         ("x" +:+ String (hex_digit (n / 16)) (String (hex_digit (n mod 16)) EmptyString))
  else String ch EmptyString.

Fixpoint repr_chars (quote : Ascii.ascii) (s : string) : string :=
  match s with
  | EmptyString => EmptyString
  | String ch rest => repr_char quote ch +:+ repr_chars quote rest
  end.

(** Python's [repr] of a [str]: in single quotes, unless the string holds a
    single quote and no double quote. *)
Definition repr (s : string) : string :=
  let quote :=
    if (contains single_quote s && negb (contains double_quote s))%bool
    then double_quote else single_quote in
  String quote (repr_chars quote s +:+ String quote EmptyString).

(** Python's [str] of a dict with [str] keys and already printed values. *)
Fixpoint str_entries (d : list (string * string)) : string :=
  match d with
  | [] => ""
  | [(k, v)] => repr k +:+ ": " +:+ v
  | (k, v) :: rest => repr k +:+ ": " +:+ v +:+ ", " +:+ str_entries rest
  end.

Definition str_dict (d : list (string * string)) : string :=
  "{" +:+ str_entries d +:+ "}".

Section Collaborators.
Context `{Parser} `{GatherReports} `{DbUtil}.

Definition call_get_filename_from_url (url : string) : M string :=
  emit (GetFilenameFromUrl url) ;;; lift (get_filename_from_url url).

Definition call_get_file_content (url : string) : M string :=
  emit (GetFileContent url) ;;; lift (get_file_content url).

Definition call_parse_temp_drop (file_content filename : string) : M DropsondeReport :=
  emit (ParseTempDrop file_content filename) ;;; lift (parse_temp_drop file_content filename).

Definition call_convert_dropsonde_to_stac_item (report : DropsondeReport) (url : string)
  : M Item.t :=
  emit (ConvertDropsondeToStacItem url) ;;; lift (convert_dropsonde_to_stac_item report url).

Definition call_add_item_to_catlog (stac_item : Item.t) : M unit :=
  emit (AddItemToCatlog (Item.id stac_item)) ;;;
  fun w =>
    let '(store, raised) := add_item_to_catlog stac_item (catalog w) in
    (mkWorld store (stdout w) (events w),
     match raised with Some e => inl e | None => inr tt end).

Definition call_iter_urls_from_archive_page (url : string) : M Iterator :=
  emit (IterUrlsFromArchivePage url) ;;; ret (iter_urls_from_archive_page url).

(** [for item_url in it: body(item_url)] *)
Fixpoint for_each (it : Iterator) (body : string -> M unit) : M unit :=
  match it with
  | StopIteration => ret tt
  | Raise e => lift (inl e)
  | Yield item_url rest => body item_url ;;; for_each rest body
  end.
End Collaborators.

(** [@custom_router.post("/file") async def parse_report(request_body)] *)
Module File.
Section Handler.
Context `{Parser} `{GatherReports} `{DbUtil}.

Definition parse_report (request_body : URLPostRequest.t) : M Response :=
  let url := URLPostRequest.url request_body in
  let! filename := call_get_filename_from_url url in
  let! file_content := call_get_file_content url in
  let! dropsonde_report := call_parse_temp_drop file_content filename in
  let! stac_item := call_convert_dropsonde_to_stac_item dropsonde_report url in
  print ("STAC Item ID: " +:+ Item.id stac_item) ;;;
  print ("STAC Item Properties: " +:+ str_dict (Item.properties stac_item)) ;;;
  call_add_item_to_catlog stac_item ;;;
  ret [("stac_item_id", Item.id stac_item);
       ("detail", "STAC item added to the catalog successfully.")].
End Handler.
End File.

Section ProcessArchive.
Context `{Parser} `{GatherReports} `{DbUtil}.

(** The body of the loop of [process_archive], for one [item_url]. *)
Definition process_archive_item (item_url : string) : M unit :=
  let! filename := call_get_filename_from_url item_url in
  let! file_content := call_get_file_content item_url in
  let! dropsonde_report := call_parse_temp_drop file_content filename in
  let! stac_item := call_convert_dropsonde_to_stac_item dropsonde_report item_url in
  print ("STAC Item ID: " +:+ Item.id stac_item) ;;;
  print ("STAC Item Properties: " +:+ str_dict (Item.properties stac_item)) ;;;
  call_add_item_to_catlog stac_item.

(** [def process_archive(url)] *)
Definition process_archive (url : string) : M unit :=
  let! it := call_iter_urls_from_archive_page url in
  for_each it process_archive_item.
End ProcessArchive.

(** [BackgroundTasks]: the jobs a request has queued, each a function of
    [app.py] with its argument; [process_archive] is the only one queued. *)
Inductive Task :=
| ProcessArchive (url : string).

Definition BackgroundTasks := list Task.

(** [background_tasks.add_task(func, *args)] *)
Definition add_task (background_tasks : BackgroundTasks) (task : Task) : BackgroundTasks :=
  background_tasks ++ [task].

(** [@custom_router.post("/archive") async def parse_report(request_body, background_tasks)] *)
Module Archive.
Definition parse_report (request_body : URLPostRequest.t) (background_tasks : BackgroundTasks)
  : M (BackgroundTasks * Response) :=
  let url := URLPostRequest.url request_body in
  let background_tasks := add_task background_tasks (ProcessArchive url) in
  ret (background_tasks, [("detail", "Processing message archive " +:+ url +:+ "!")]).
End Archive.

(** ** Serving a request

    FastAPI sends the handler's return value as the response body; an
    exception that leaves the handler is answered by the application with a
    500 whose body names the class of the exception and its message, kept
    here as the exception itself.  Tasks queued on
    [BackgroundTasks] are run by Starlette one after the other once the
    response is out, and an exception in one of them reaches the server's own
    error log only. *)
Inductive HttpResponse :=
| Http200 (body : Response)
| Http500 (raised : Exception).

Record Served := mkServed {
  response : HttpResponse;
  world_after : World;
  task_error : option Exception;
}.

Section Serving.
Context `{Parser} `{GatherReports} `{DbUtil}.

Definition run_task (task : Task) : M unit :=
  match task with
  | ProcessArchive url => process_archive url
  end.

Fixpoint run_tasks (tasks : BackgroundTasks) : M unit :=
  match tasks with
  | [] => ret tt
  | task :: tasks => run_task task ;;; run_tasks tasks
  end.

Definition post_file (request_body : URLPostRequest.t) (w : World) : Served :=
  match File.parse_report request_body w with
  | (w1, inl e) => mkServed (Http500 e) (emit (ErrorResponseSent e) w1).1 None
  | (w1, inr body) => mkServed (Http200 body) (emit (ResponseSent body) w1).1 None
  end.

Definition post_archive (request_body : URLPostRequest.t) (w : World) : Served :=
  match Archive.parse_report request_body [] w with
  | (w1, inl e) => mkServed (Http500 e) (emit (ErrorResponseSent e) w1).1 None
  | (w1, inr (tasks, body)) =>
      let w2 := (emit (ResponseSent body) w1).1 in
      let '(w3, r) := run_tasks tasks w2 in
      mkServed (Http200 body) w3 (match r with inl e => Some e | inr _ => None end)
  end.
End Serving.

(** ** Reading a trace and an iterator *)

(** The URLs whose ingestion was started, whose content was fetched, and the
    identifiers handed to the writer, each in order of occurrence. *)
Definition started (evs : list Event) : list string :=
  omap (fun ev => match ev with GetFilenameFromUrl u => Some u | _ => None end) evs.

Definition fetched (evs : list Event) : list string :=
  omap (fun ev => match ev with GetFileContent u => Some u | _ => None end) evs.

Definition parsed (evs : list Event) : list string :=
  omap (fun ev => match ev with ParseTempDrop _ f => Some f | _ => None end) evs.

Definition written (evs : list Event) : list string :=
  omap (fun ev => match ev with AddItemToCatlog i => Some i | _ => None end) evs.

(** The item URLs an iterator yields before it stops or raises. *)
Fixpoint iter_urls (it : Iterator) : list string :=
  match it with
  | Yield item_url rest => item_url :: iter_urls rest
  | _ => []
  end.

(** The exception that ends the iteration, if it does not just stop. *)
Fixpoint iter_raised (it : Iterator) : option Exception :=
  match it with
  | StopIteration => None
  | Raise e => Some e
  | Yield _ rest => iter_raised rest
  end.

(** The iterator that yields [urls] and goes on as [tl]. *)
Fixpoint yields (urls : list string) (tl : Iterator) : Iterator :=
  match urls with
  | [] => tl
  | u :: urls => Yield u (yields urls tl)
  end.

Section Pipeline.
Context `{Parser} `{GatherReports}.

(** The stages of one ingestion that come before the write, in the order
    of [app.py]: file name, fetch, parse, convert. *)
Definition build_item (url : string) : Exception + Item.t :=
  match get_filename_from_url url with
  | inl e => inl e
  | inr filename =>
      match get_file_content url with
      | inl e => inl e
      | inr file_content =>
          match parse_temp_drop file_content filename with
          | inl e => inl e
          | inr dropsonde_report => convert_dropsonde_to_stac_item dropsonde_report url
          end
      end
  end.

(** Identifier [i] is the one of the item built from [item_url]. *)
Definition item_written (item_url i : string) : Prop :=
  exists stac_item, build_item item_url = inr stac_item /\ Item.id stac_item = i.
End Pipeline.

Section Writes.
Context `{DbUtil}.

(** The store after the writer has been handed [items] one after the other,
    whether or not it raised on the last. *)
Fixpoint write_items (items : list Item.t) (store : gmap string Item.t)
  : gmap string Item.t :=
  match items with
  | [] => store
  | stac_item :: items => write_items items (add_item_to_catlog stac_item store).1
  end.
End Writes.

(** The world after some more events and printed lines, the store as is. *)
Definition record (w : World) (evs : list Event) (lines : list string) : World :=
  mkWorld (catalog w) (stdout w ++ lines) (events w ++ evs).

(** The two lines the handlers print for an item. *)
Definition item_lines (stac_item : Item.t) : list string :=
  ["STAC Item ID: " +:+ Item.id stac_item;
   "STAC Item Properties: " +:+ str_dict (Item.properties stac_item)].

(** The body [POST /parse/file] answers with. *)
Definition file_response (stac_item : Item.t) : Response :=
  [("stac_item_id", Item.id stac_item);
   ("detail", "STAC item added to the catalog successfully.")].

(** The body [POST /parse/archive] answers with. *)
Definition acknowledgment (url : string) : Response :=
  [("detail", "Processing message archive " +:+ url +:+ "!")].

(** ** The catalog writer

    Modelled from the spec: [db_util.add_item_to_catlog], whose code is not
    part of [app.py].  The catalog writer upserts a record keyed by its
    identifier: it inserts if the identifier is absent and overwrites if it is
    present (last write wins, no duplicate record); it fails with a storage
    error on connectivity or constraint violations, which [fault] decides, and
    then leaves the store as it was. *)
Definition upsert (fault : Item.t -> gmap string Item.t -> option Exception)
    (item : Item.t) (store : gmap string Item.t) : gmap string Item.t * option Exception :=
  match fault item store with
  | Some e => (store, Some e)
  | None => (<[Item.id item := item]> store, None)
  end.

Definition spec_db_util (fault : Item.t -> gmap string Item.t -> option Exception) : DbUtil :=
  {| add_item_to_catlog := upsert fault |}.

(** ** Three claims as they are worded *)

(** C1 as worded: every URL the listing yields is taken up by
    [process_archive], whatever happens to the ones before it. *)
Definition archive_items_isolated `{Parser} `{GatherReports} `{DbUtil} : Prop :=
  forall url w us,
    iter_urls_from_archive_page url = yields us StopIteration ->
    exists evs, events (process_archive url w).1 = events w ++ evs /\ started evs = us.

(** C2 as worded: [process_archive] raises exactly when the listing does. *)
Definition archive_fails_only_on_listing `{Parser} `{GatherReports} `{DbUtil} : Prop :=
  forall url w,
    (exists e, (process_archive url w).2 = inl e) <->
    (exists e, iter_raised (iter_urls_from_archive_page url) = Some e).

(** C3 as worded: whatever stage fails, the caller of [POST /parse/file] is
    handed back a value. *)
Definition stage_errors_are_returned `{Parser} `{GatherReports} `{DbUtil} : Prop :=
  forall request_body w, exists outcome, (File.parse_report request_body w).2 = inr outcome.

(** ** A small remote, for concrete runs

    [https://x/archive/] lists [a.dat], [b.dat] and [c.dat],
    [https://x/mirror/] lists [c.dat] and [a.dat], and [https://x/empty/]
    lists nothing; a report is a line of digits, one timestamp per record, and
    the third record of [b.dat] goes back in time. *)
Module Demo.
Definition archive := "https://x/archive/".
Definition empty_archive := "https://x/empty/".
Definition mirror := "https://x/mirror/".
Definition missing := "https://x/missing.dat".
Definition a := "https://x/a.dat".
Definition b := "https://x/b.dat".
Definition c := "https://x/c.dat".

Fixpoint table {A} (rows : list (string * A)) (key : string) : option A :=
  match rows with
  | [] => None
  | (k, v) :: rows => if bool_decide (k = key) then Some v else table rows key
  end.

Record report := mk_report { name : string; timestamps : list nat }.

(** The position, counted from [position], of the first timestamp that is
    smaller than the one before it. *)
Fixpoint first_disorder (previous position : nat) (ts : list nat) : option nat :=
  match ts with
  | [] => None
  | t :: ts =>
      if Nat.ltb t previous then Some position else first_disorder t (S position) ts
  end.

Definition digits (s : string) : list nat :=
  (fun ch => (Ascii.nat_of_ascii ch - 48)%nat) <$> String.list_ascii_of_string s.

Definition demo_parser : Parser := {|
  DropsondeReport := report;
  get_filename_from_url url :=
    match table [(a, "a.dat"); (b, "b.dat"); (c, "c.dat")] url with
    | Some f => inr f
    | None => inr "index.html"
    end;
  parse_temp_drop file_content filename :=
    match first_disorder 0 1 (digits file_content) with
    | Some position => inl (MalformedReportError filename position)
    | None => inr (mk_report filename (digits file_content))
    end;
  convert_dropsonde_to_stac_item r url :=
    match timestamps r with
    | [] => inl (ConversionError url)
    | t :: _ => inr (Item.mk (name r) [("source", "'" +:+ url +:+ "'")])
    end;
|}.

Definition demo_gather_reports : GatherReports := {|
  get_file_content url :=
    match table [(a, "123"); (b, "132"); (c, "456")] url with
    | Some content => inr content
    | None => inl (FetchError url)
    end;
  iter_urls_from_archive_page url :=
    if bool_decide (url = archive) then yields [a; b; c] StopIteration
    else if bool_decide (url = mirror) then yields [c; a] StopIteration
    else if bool_decide (url = empty_archive) then StopIteration
    else Raise (FetchError url);
|}.

Definition demo_db_util : DbUtil := spec_db_util (fun _ _ => None).

Definition w0 : World := mkWorld ∅ [] [].

Definition malformed_b : Exception := MalformedReportError "b.dat" 3.

(** The world once the listing was asked for and [a.dat] ingested, and the
    world after the attempt at [b.dat]. *)
Definition after_a : World :=
  (for_each (yields [a] StopIteration)
     (@process_archive_item demo_parser demo_gather_reports demo_db_util)
     (record w0 [IterUrlsFromArchivePage archive] [])).1.

Definition after_b : World :=
  (@process_archive_item demo_parser demo_gather_reports demo_db_util b after_a).1.
End Demo.

(** ** Assembling the application

    The module-level code of [app.py] that decides, from the process
    environment, which extensions the API is built with.  Dicts are kept as
    association lists in insertion order (the list comprehensions walk
    [.items()]), [enabled_extensions] is a set, and [os.environ] is a finite
    map. *)

(** The [conformance_classes] an extension is built with: the extension's
    own default, or the [COLLECTIONS] or [ITEMS] class of its enum. *)
Inductive Conformance :=
| DEFAULT
| COLLECTIONS
| ITEMS.

#[warnings="-register-all"]
Inductive Extension :=
| QueryExtension (conformance_classes : Conformance)
| SortExtension (conformance_classes : Conformance)
| FieldsExtension (conformance_classes : Conformance)
| SearchFilterExtension
| CollectionSearchFilterExtension
| ItemCollectionFilterExtension
| FreeTextExtension (conformance_classes : Conformance)
| TokenPaginationExtension
| OffsetPaginationExtension
| TransactionExtension
| BulkTransactionExtension
| CollectionSearchExtension (extensions : list Extension).

(** The request models [app.py] picks or has the library build. *)
Inductive RequestModel :=
| EmptyRequest
| ItemCollectionUri
| create_post_request_model (extensions : list Extension)
| create_get_request_model (extensions : list Extension)
| create_request_model (model_name : string) (extensions : list Extension)
    (request_type : string)
| CollectionSearchGET (extensions : list Extension).

Definition search_extensions_map : list (string * Extension) :=
  [("query", QueryExtension DEFAULT);
   ("sort", SortExtension DEFAULT);
   ("fields", FieldsExtension DEFAULT);
   ("filter", SearchFilterExtension);
   ("pagination", TokenPaginationExtension)].

Definition cs_extensions_map : list (string * Extension) :=
  [("query", QueryExtension COLLECTIONS);
   ("sort", SortExtension COLLECTIONS);
   ("fields", FieldsExtension COLLECTIONS);
   ("filter", CollectionSearchFilterExtension);
   ("free_text", FreeTextExtension COLLECTIONS);
   ("pagination", OffsetPaginationExtension)].

Definition itm_col_extensions_map : list (string * Extension) :=
  [("query", QueryExtension ITEMS);
   ("sort", SortExtension ITEMS);
   ("fields", FieldsExtension ITEMS);
   ("filter", ItemCollectionFilterExtension);
   ("pagination", TokenPaginationExtension)].

(** [s.split(",")] for a one-character separator: the pieces between the
    separators, empty ones included; never the empty list. *)
Fixpoint split (sep : Ascii.ascii) (s : string) : list string :=
  match s with
  | EmptyString => [EmptyString]
  | String ch rest =>
      if bool_decide (ch = sep) then EmptyString :: split sep rest
      else match split sep rest with
           | piece :: pieces => String ch piece :: pieces
           | [] => [String ch EmptyString]
           end
  end.

(** [sep.join(pieces)] *)
Fixpoint join (sep : Ascii.ascii) (pieces : list string) : string :=
  match pieces with
  | [] => EmptyString
  | [piece] => piece
  | piece :: pieces => piece +:+ String sep (join sep pieces)
  end.

Definition comma : Ascii.ascii := Ascii.ascii_of_nat 44.

(** [str.lower()] on ASCII letters; other characters stay. *)
Definition lower_ascii (ch : Ascii.ascii) : Ascii.ascii :=
  let n := Ascii.nat_of_ascii ch in
  if (Nat.leb 65 n && Nat.leb n 90)%bool then Ascii.ascii_of_nat (n + 32) else ch.

Fixpoint lower (s : string) : string :=
  match s with
  | EmptyString => EmptyString
  | String ch rest => String (lower_ascii ch) (lower rest)
  end.

(** The set [app.py] starts from: the keys of the three maps and
    ["collection_search"]. *)
Definition all_extensions : gset string :=
  list_to_set (search_extensions_map.*1 ++ cs_extensions_map.*1
               ++ itm_col_extensions_map.*1 ++ ["collection_search"]).

(** [[extension for key, extension in m.items() if key in enabled]] *)
Definition select (m : list (string * Extension)) (enabled : gset string) : list Extension :=
  (filter (fun kv => kv.1 ∈ enabled) m).*2.

Section Assembly.
Variable environ : gmap string string.

(** [enabled_extensions], after the [if ext := os.environ.get(...)] that may
    replace it: an unset or empty variable leaves the full set. *)
Definition enabled_extensions : gset string :=
  match environ !! "ENABLED_EXTENSIONS" with
  | Some ext =>
      if bool_decide (ext = EmptyString) then all_extensions
      else list_to_set (split comma ext)
  | None => all_extensions
  end.

Definition with_transactions : bool :=
  bool_decide (lower (default EmptyString (environ !! "ENABLE_TRANSACTIONS_EXTENSIONS"))
               ∈ ["yes"; "true"; "1"]).

Definition search_extensions : list Extension :=
  select search_extensions_map enabled_extensions.

Definition post_request_model : RequestModel := create_post_request_model search_extensions.

Definition get_request_model : RequestModel := create_get_request_model search_extensions.

Definition itm_col_extensions : list Extension :=
  select itm_col_extensions_map enabled_extensions.

Definition items_get_request_model : RequestModel :=
  match itm_col_extensions with
  | [] => ItemCollectionUri
  | _ => create_request_model "ItemCollectionUri" itm_col_extensions "GET"
  end.

Definition cs_extensions : list Extension :=
  select cs_extensions_map enabled_extensions.

Definition collections_get_request_model : RequestModel :=
  if bool_decide ("collection_search" ∈ enabled_extensions)
  then CollectionSearchGET cs_extensions
  else EmptyRequest.

(** [application_extensions], through the appends and extends of the module
    in their order. *)
Definition application_extensions : list Extension :=
  let application_extensions := [] in
  let application_extensions :=
    if with_transactions
    then (application_extensions ++ [TransactionExtension]) ++ [BulkTransactionExtension]
    else application_extensions in
  let application_extensions := application_extensions ++ search_extensions in
  let application_extensions :=
    match itm_col_extensions with
    | [] => application_extensions
    | _ => application_extensions ++ itm_col_extensions
    end in
  if bool_decide ("collection_search" ∈ enabled_extensions)
  then application_extensions ++ [CollectionSearchExtension cs_extensions]
  else application_extensions.

(** What [lifespan] does around the serving of requests:
    [connect_to_db(app, add_write_connection_pool=with_transactions)], and
    [close_db_connection(app)] at shutdown. *)
Inductive DbCall :=
| connect_to_db (add_write_connection_pool : bool)
| close_db_connection.

Definition lifespan : list DbCall * list DbCall :=
  ([connect_to_db with_transactions], [close_db_connection]).
End Assembly.

(** An extension that only collection search is built from. *)
Definition collection_only (ext : Extension) : Prop :=
  match ext with
  | FreeTextExtension _ | OffsetPaginationExtension | CollectionSearchFilterExtension
  | QueryExtension COLLECTIONS | SortExtension COLLECTIONS | FieldsExtension COLLECTIONS => True
  | _ => False
  end.

Definition is_collection_search (ext : Extension) : Prop :=
  match ext with
  | CollectionSearchExtension _ => True
  | _ => False
  end.

(** The five names that the search and the item collection maps share. *)
Definition shared_keys : list string := ["query"; "sort"; "fields"; "filter"; "pagination"].

(** The names [app.py] gives a meaning to in [ENABLED_EXTENSIONS]. *)
Definition known_names : list string := shared_keys ++ ["free_text"; "collection_search"].

(** Two more remotes for concrete runs: an archive page that lists [a.dat]
    alone, and a store that refuses every write. *)
Module DemoMore.
Definition single_archive_reports : GatherReports := {|
  get_file_content := @get_file_content Demo.demo_gather_reports;
  iter_urls_from_archive_page _ := Yield Demo.a StopIteration;
|}.

Definition refusing_db_util : DbUtil :=
  spec_db_util (fun item _ => Some (StorageError (Item.id item))).

Definition item_a : Item.t := Item.mk "a.dat" [("source", "'https://x/a.dat'")].
End DemoMore.

(** * Properties *)

Lemma started_app evs1 evs2 : started (evs1 ++ evs2) = started evs1 ++ started evs2.
Proof. apply omap_app. Qed.

Lemma fetched_app evs1 evs2 : fetched (evs1 ++ evs2) = fetched evs1 ++ fetched evs2.
Proof. apply omap_app. Qed.

Lemma parsed_app evs1 evs2 : parsed (evs1 ++ evs2) = parsed evs1 ++ parsed evs2.
Proof. apply omap_app. Qed.

Lemma written_app evs1 evs2 : written (evs1 ++ evs2) = written evs1 ++ written evs2.
Proof. apply omap_app. Qed.

Lemma iter_urls_yields us : iter_urls (yields us StopIteration) = us.
Proof. induction us as [|u us IH]; simpl; [done|by rewrite IH]. Qed.

(** ** One ingestion, stage by stage *)

(** Case analysis on the collaborators' results, in call order. *)
Ltac stage_cases :=
  repeat match goal with
    | |- context [get_filename_from_url ?u] =>
        destruct (get_filename_from_url u) as [?|?filename] eqn:?; simpl
    | |- context [get_file_content ?u] =>
        destruct (get_file_content u) as [?|?file_content] eqn:?; simpl
    | |- context [parse_temp_drop ?c ?f] =>
        destruct (parse_temp_drop c f) as [?|?dropsonde_report] eqn:?; simpl
    | |- context [convert_dropsonde_to_stac_item ?r ?u] =>
        destruct (convert_dropsonde_to_stac_item r u) as [?|?stac_item] eqn:?; simpl
    | |- context [add_item_to_catlog ?i ?c] =>
        destruct (add_item_to_catlog i c) as [?store [?|]] eqn:?; simpl
    end.

(** Unfold a handler down to the collaborators and split on their results. *)
Ltac run_stages :=
  unfold File.parse_report, process_archive_item, call_get_filename_from_url,
    call_get_file_content, call_parse_temp_drop, call_convert_dropsonde_to_stac_item,
    call_add_item_to_catlog, bind, emit, print, lift, ret, record, item_lines,
    file_response, build_item;
  simpl; stage_cases; simpl; rewrite <- ?app_assoc, ?app_nil_r; simpl.

Section Stages.
Context `{Parser} `{GatherReports} `{DbUtil}.

(** The loop body of [process_archive], written out: the calls happen in the
    order file name, fetch, parse, convert, print, print, write, and the first
    exception ends it. *)
Lemma process_archive_item_stages (item_url : string) (w : World) :
  process_archive_item item_url w =
    match get_filename_from_url item_url with
    | inl e => (record w [GetFilenameFromUrl item_url] [], inl e)
    | inr filename =>
      match get_file_content item_url with
      | inl e => (record w [GetFilenameFromUrl item_url; GetFileContent item_url] [], inl e)
      | inr file_content =>
        match parse_temp_drop file_content filename with
        | inl e =>
            (record w [GetFilenameFromUrl item_url; GetFileContent item_url;
                       ParseTempDrop file_content filename] [], inl e)
        | inr dropsonde_report =>
          match convert_dropsonde_to_stac_item dropsonde_report item_url with
          | inl e =>
              (record w [GetFilenameFromUrl item_url; GetFileContent item_url;
                         ParseTempDrop file_content filename;
                         ConvertDropsondeToStacItem item_url] [], inl e)
          | inr stac_item =>
              let '(store, raised) := add_item_to_catlog stac_item (catalog w) in
              (mkWorld store (stdout w ++ item_lines stac_item)
                 (events w ++ [GetFilenameFromUrl item_url; GetFileContent item_url;
                               ParseTempDrop file_content filename;
                               ConvertDropsondeToStacItem item_url;
                               AddItemToCatlog (Item.id stac_item)]),
               match raised with Some e => inl e | None => inr tt end)
          end
        end
      end
    end.
Proof. run_stages; reflexivity. Qed.

(** C3 (as amended): [POST /parse/file] runs its stages in the order fetch,
    parse, convert, write (after the file name is taken from the URL); the
    first stage that raises ends the handler there, with none of the later
    stages called, and its exception leaves the handler as raised, not as a
    returned value.  Only when every stage succeeds does the handler return,
    with the item's identifier. *)
Theorem parse_report_first_failure_escapes (request_body : URLPostRequest.t) (w : World) :
  let url := URLPostRequest.url request_body in
  File.parse_report request_body w =
    match get_filename_from_url url with
    | inl e => (record w [GetFilenameFromUrl url] [], inl e)
    | inr filename =>
      match get_file_content url with
      | inl e => (record w [GetFilenameFromUrl url; GetFileContent url] [], inl e)
      | inr file_content =>
        match parse_temp_drop file_content filename with
        | inl e =>
            (record w [GetFilenameFromUrl url; GetFileContent url;
                       ParseTempDrop file_content filename] [], inl e)
        | inr dropsonde_report =>
          match convert_dropsonde_to_stac_item dropsonde_report url with
          | inl e =>
              (record w [GetFilenameFromUrl url; GetFileContent url;
                         ParseTempDrop file_content filename;
                         ConvertDropsondeToStacItem url] [], inl e)
          | inr stac_item =>
              let '(store, raised) := add_item_to_catlog stac_item (catalog w) in
              (mkWorld store (stdout w ++ item_lines stac_item)
                 (events w ++ [GetFilenameFromUrl url; GetFileContent url;
                               ParseTempDrop file_content filename;
                               ConvertDropsondeToStacItem url;
                               AddItemToCatlog (Item.id stac_item)]),
               match raised with
               | Some e => inl e
               | None => inr (file_response stac_item)
               end)
          end
        end
      end
    end.
Proof. intros url. subst url. run_stages; reflexivity. Qed.

(** The handler in terms of the stages before the write. *)
Lemma parse_report_build_item (request_body : URLPostRequest.t) (w : World) :
  match build_item (URLPostRequest.url request_body) with
  | inl e =>
      exists evs, File.parse_report request_body w = (record w evs [], inl e)
                  /\ written evs = []
  | inr stac_item =>
      exists evs,
        File.parse_report request_body w =
          (mkWorld (add_item_to_catlog stac_item (catalog w)).1
             (stdout w ++ item_lines stac_item)
             (events w ++ evs ++ [AddItemToCatlog (Item.id stac_item)]),
           match (add_item_to_catlog stac_item (catalog w)).2 with
           | Some e => inl e
           | None => inr (file_response stac_item)
           end)
        /\ written evs = []
  end.
Proof.
  run_stages;
    first [ eexists [_; _; _; _]; split; reflexivity
          | eexists [_; _; _]; split; reflexivity
          | eexists [_; _]; split; reflexivity
          | eexists [_]; split; reflexivity ].
Qed.

(** C4: when a stage of [POST /parse/file] before the write fails, the handler
    raises that stage's exception and leaves the catalog store (and standard
    output) exactly as it found it, with no call to the writer; and whenever
    the writer is called, fetch, parse and convert have all succeeded and it
    is called with the converted item. *)
Theorem parse_report_no_partial_write (request_body : URLPostRequest.t) (w : World) :
  let url := URLPostRequest.url request_body in
  let run := File.parse_report request_body w in
  (forall e, build_item url = inl e ->
     run.2 = inl e /\ catalog run.1 = catalog w /\ stdout run.1 = stdout w
     /\ written (events run.1) = written (events w))
  /\ (written (events run.1) <> written (events w) ->
      exists stac_item, build_item url = inr stac_item
        /\ written (events run.1) = written (events w) ++ [Item.id stac_item]).
Proof.
  intros url run. subst run url.
  pose proof (parse_report_build_item request_body w) as Hrun.
  destruct (build_item _) as [e0|stac_item].
  - destruct Hrun as (evs & -> & Hw). split.
    + intros e [= <-]. simpl. by rewrite app_nil_r, written_app, Hw, app_nil_r.
    + simpl. rewrite written_app, Hw, app_nil_r. done.
  - destruct Hrun as (evs & -> & Hw). split; [done|].
    intros _. exists stac_item. split; [done|]. simpl.
    by rewrite !written_app, Hw.
Qed.
End Stages.

(** ** The loop of [process_archive] *)

Section Loop.
Variable body : string -> M unit.

Lemma for_each_yields (us : list string) (tl : Iterator) (w : World) :
  for_each (yields us tl) body w =
    match for_each (yields us StopIteration) body w with
    | (w1, inl e) => (w1, inl e)
    | (w1, inr _) => for_each tl body w1
    end.
Proof.
  revert w. induction us as [|u us IH]; intros w; simpl; [done|].
  unfold bind. destruct (body u w) as [w' [e|[]]]; [done|]. apply IH.
Qed.

Lemma for_each_fails_iff (it : Iterator) (w : World) (e : Exception) :
  (for_each it body w).2 = inl e <->
  exists us tl w1,
    it = yields us tl
    /\ for_each (yields us StopIteration) body w = (w1, inr tt)
    /\ (tl = Raise e \/ exists u tl' w2, tl = Yield u tl' /\ body u w1 = (w2, inl e)).
Proof.
  split.
  - revert w. induction it as [|e'|u rest IH]; intros w; simpl.
    + discriminate.
    + intros [= ->]. exists [], (Raise e), w. auto.
    + unfold bind. destruct (body u w) as [w' [e'|[]]] eqn:Hu; simpl.
      * intros [= ->]. exists [], (Yield u rest), w. split; [done|]. split; [done|].
        right. by exists u, rest, w'.
      * intros Hrest. destruct (IH _ Hrest) as (us & tl & w1 & -> & Hus & Htl).
        exists (u :: us), tl, w1. split; [done|]. split; [|done].
        simpl. unfold bind. by rewrite Hu.
  - intros (us & tl & w1 & -> & Hus & Htl). rewrite for_each_yields, Hus.
    destruct Htl as [->|(u & tl' & w2 & -> & Hu)]; simpl; [done|].
    unfold bind. by rewrite Hu.
Qed.

Lemma for_each_returns_iff (it : Iterator) (w : World) :
  (for_each it body w).2 = inr tt <->
  exists w1, it = yields (iter_urls it) StopIteration
    /\ for_each (yields (iter_urls it) StopIteration) body w = (w1, inr tt).
Proof.
  split.
  - revert w. induction it as [|e'|u rest IH]; intros w; simpl.
    + by exists w.
    + discriminate.
    + unfold bind. destruct (body u w) as [w' [e'|[]]] eqn:Hu; simpl; [discriminate|].
      intros Hrest. destruct (IH _ Hrest) as (w1 & Hit & Hrun).
      exists w1. split; [by rewrite <- Hit|done].
  - intros (w1 & Hit & Hrun). rewrite Hit. by rewrite Hrun.
Qed.
End Loop.

Section Archive.
Context `{Parser} `{GatherReports} `{DbUtil}.

Lemma process_archive_item_trace (item_url : string) (w w' : World) (r : Exception + unit) :
  process_archive_item item_url w = (w', r) ->
  exists evs,
    events w' = events w ++ evs
    /\ started evs = [item_url]
    /\ fetched evs `prefix_of` [item_url]
    /\ (written evs = [] \/ exists i, item_written item_url i /\ written evs = [i])
    /\ (r = inr tt ->
          fetched evs = [item_url]
          /\ exists stac_item, build_item item_url = inr stac_item
               /\ written evs = [Item.id stac_item]
               /\ stdout w' = stdout w ++ item_lines stac_item).
Proof.
  rewrite process_archive_item_stages. unfold item_written, build_item.
  stage_cases; intros [= <- <-]; simpl; eexists; (split; [reflexivity|]); simpl;
    (split; [reflexivity|]);
    (split; [first [apply prefix_nil | reflexivity]|]);
    (split; [first [by left | right; eexists; split; [eexists; split; reflexivity|reflexivity]]|]);
    try discriminate; intros _; (split; [reflexivity|]);
    eexists; split; [reflexivity|split; reflexivity].
Qed.

Lemma for_each_item_trace (it : Iterator) (w w' : World) (r : Exception + unit) :
  for_each it process_archive_item w = (w', r) ->
  exists evs,
    events w' = events w ++ evs
    /\ started evs `prefix_of` iter_urls it
    /\ fetched evs `prefix_of` iter_urls it
    /\ (exists handled, handled `prefix_of` iter_urls it
                         /\ Forall2 item_written handled (written evs))
    /\ (r = inr tt ->
          started evs = iter_urls it /\ fetched evs = iter_urls it
          /\ Forall2 item_written (iter_urls it) (written evs)).
Proof.
  revert w. induction it as [|e|u rest IH]; intros w; simpl.
  - intros [= <- <-]. exists []. rewrite app_nil_r. repeat split; try done.
    exists []. by split.
  - intros [= <- <-]. exists []. rewrite app_nil_r. repeat split; try done.
    exists []. by split.
  - unfold bind. destruct (process_archive_item u w) as [w1 r1] eqn:Hu.
    destruct (process_archive_item_trace _ _ _ _ Hu) as (evs1 & Hev1 & Hs1 & Hf1 & Hw1 & Hok1).
    destruct r1 as [e|[]].
    + intros [= <- <-]. exists evs1. split; [done|]. rewrite Hs1.
      split; [by apply prefix_cons, prefix_nil|].
      split; [etrans; [exact Hf1|by apply prefix_cons, prefix_nil]|].
      split; [|discriminate].
      destruct Hw1 as [->|(i & Hi & ->)].
      * exists []. split; [apply prefix_nil|constructor].
      * exists [u]. split; [by apply prefix_cons, prefix_nil|]. by repeat constructor.
    + destruct (Hok1 eq_refl) as (Hf & stac_item & Hb & Hw & _).
      intros Hrest. destruct (IH _ Hrest) as (evs2 & Hev2 & Hs2 & Hf2 & Hh2 & Hok2).
      exists (evs1 ++ evs2). rewrite Hev2, Hev1, app_assoc. split; [done|].
      rewrite started_app, fetched_app, written_app, Hs1, Hf, Hw. simpl.
      assert (item_written u (Item.id stac_item)) as Hu' by by exists stac_item.
      split; [by apply prefix_cons|]. split; [by apply prefix_cons|]. split.
      * destruct Hh2 as (handled & Hp & Hall). exists (u :: handled).
        split; [by apply prefix_cons|by constructor].
      * intros ->. destruct (Hok2 eq_refl) as (-> & -> & Hall).
        repeat split; try done. by constructor.
Qed.

Lemma process_archive_unfold (url : string) (w : World) :
  process_archive url w =
    for_each (iter_urls_from_archive_page url) process_archive_item
      (record w [IterUrlsFromArchivePage url] []).
Proof.
  unfold process_archive, call_iter_urls_from_archive_page, bind, emit, ret, record.
  simpl. by rewrite app_nil_r.
Qed.

(** Whatever [process_archive] does comes after its call for the listing. *)
Lemma process_archive_events (url : string) (w : World) :
  exists evs, events (process_archive url w).1 = events w ++ IterUrlsFromArchivePage url :: evs.
Proof.
  rewrite process_archive_unfold. destruct (for_each _ _ _) as [w' r] eqn:Hrun.
  destruct (for_each_item_trace _ _ _ _ Hrun) as (evs & Hev & _).
  exists evs. simpl in *. by rewrite <- app_assoc in Hev.
Qed.

(** The loop body in terms of the stages before the write. *)
Lemma process_archive_item_outcome (u : string) (w : World) :
  match build_item u with
  | inl e =>
      exists evs,
        process_archive_item u w = (record w evs [], inl e)
        /\ written evs = [] /\ started evs = [u]
  | inr stac_item =>
      exists evs,
        process_archive_item u w =
          (mkWorld (add_item_to_catlog stac_item (catalog w)).1
             (stdout w ++ item_lines stac_item)
             (events w ++ evs ++ [AddItemToCatlog (Item.id stac_item)]),
           match (add_item_to_catlog stac_item (catalog w)).2 with
           | Some e => inl e
           | None => inr tt
           end)
        /\ written evs = [] /\ started evs = [u]
  end.
Proof.
  run_stages;
    first [ eexists [_; _; _; _]; split; [reflexivity|split; reflexivity]
          | eexists [_; _; _]; split; [reflexivity|split; reflexivity]
          | eexists [_; _]; split; [reflexivity|split; reflexivity]
          | eexists [_]; split; [reflexivity|split; reflexivity] ].
Qed.

(** What the loop leaves behind: the items of an initial part of the listing
    were built and handed to the writer, in listing order, and standard
    output and the catalog are what those items give. *)
Lemma for_each_item_outcomes (it : Iterator) (w w' : World) (r : Exception + unit) :
  for_each it process_archive_item w = (w', r) ->
  exists handled items evs,
    handled `prefix_of` iter_urls it
    /\ Forall2 (fun u stac_item => build_item u = inr stac_item) handled items
    /\ events w' = events w ++ evs
    /\ written evs = Item.id <$> items
    /\ stdout w' = stdout w ++ concat (item_lines <$> items)
    /\ catalog w' = write_items items (catalog w)
    /\ (r = inr tt -> handled = iter_urls it).
Proof.
  revert w. induction it as [|e|u rest IH]; intros w; simpl.
  - intros [= <- <-]. exists [], [], []. rewrite !app_nil_r. by repeat split.
  - intros [= <- <-]. exists [], [], []. rewrite !app_nil_r. by repeat split.
  - unfold bind. pose proof (process_archive_item_outcome u w) as Hu.
    destruct (build_item u) as [e|stac_item] eqn:Hbuild.
    + destruct Hu as (evs & -> & Hw & _). intros [= <- <-].
      exists [], [], evs. simpl. rewrite app_nil_r.
      split; [apply prefix_nil|]. by repeat split.
    + destruct Hu as (evs & -> & Hw & _).
      destruct (add_item_to_catlog stac_item (catalog w)) as [store [e|]] eqn:Hadd; simpl.
      * intros [= <- <-]. exists [u], [stac_item], (evs ++ [AddItemToCatlog (Item.id stac_item)]).
        simpl. rewrite written_app, Hw, ?Hadd, ?app_nil_r. simpl.
        split; [by apply prefix_cons, prefix_nil|]. split; [by repeat constructor|].
        by repeat split.
      * intros Hrest. destruct (IH _ Hrest) as (handled & items & evs2 & Hp & Hall & Hev & Hwr & Hout & Hcat & Hok).
        exists (u :: handled), (stac_item :: items),
          ((evs ++ [AddItemToCatlog (Item.id stac_item)]) ++ evs2).
        simpl in *. rewrite Hev, Hout, Hcat, Hadd, !written_app, Hw, Hwr. simpl.
        split; [by apply prefix_cons|]. split; [by constructor|].
        split; [by rewrite <- !app_assoc|]. split; [done|].
        split; [by rewrite <- !app_assoc|]. split; [done|].
        intros Hr. by rewrite (Hok Hr).
Qed.

(** C1 (as amended): [process_archive] takes the item URLs in listing order
    and stops at the first item one of whose stages raises.  When the items
    [us] before [u] are ingested and [u] fails with [e], then [e] leaves
    [process_archive] and nothing that the listing holds after [u] is
    started.  Each of [us] was fetched, printed and handed to the writer
    once, in order, and the catalog then is what those writer calls left.
    For [u] itself either a stage before the write raised, and nothing more
    is printed or written, or its two lines are printed and the write is the
    call that raised, and the catalog is what that call left. *)
Theorem process_archive_stops_at_first_failure
    (url : string) (w w1 w2 : World) (us : list string) (u : string) (tl : Iterator)
    (e : Exception) :
  iter_urls_from_archive_page url = yields us (Yield u tl) ->
  for_each (yields us StopIteration) process_archive_item
    (record w [IterUrlsFromArchivePage url] []) = (w1, inr tt) ->
  process_archive_item u w1 = (w2, inl e) ->
  process_archive url w = (w2, inl e)
  /\ exists items evs1 evs2,
      events w1 = events w ++ IterUrlsFromArchivePage url :: evs1
      /\ events w2 = events w1 ++ evs2
      /\ started evs1 = us /\ fetched evs1 = us
      /\ Forall2 (fun u stac_item => build_item u = inr stac_item) us items
      /\ written evs1 = Item.id <$> items
      /\ stdout w1 = stdout w ++ concat (item_lines <$> items)
      /\ catalog w1 = write_items items (catalog w)
      /\ started (evs1 ++ evs2) = us ++ [u]
      /\ ((build_item u = inl e /\ written evs2 = []
           /\ stdout w2 = stdout w1 /\ catalog w2 = catalog w1)
          \/ exists stac_item,
               build_item u = inr stac_item
               /\ add_item_to_catlog stac_item (catalog w1) = (catalog w2, Some e)
               /\ written evs2 = [Item.id stac_item]
               /\ stdout w2 = stdout w1 ++ item_lines stac_item).
Proof.
  intros Hit Hus Hu. split.
  - rewrite process_archive_unfold, Hit, for_each_yields, Hus. simpl.
    unfold bind. by rewrite Hu.
  - destruct (for_each_item_trace _ _ _ _ Hus) as (evs1 & Hev1 & _ & _ & _ & Hok).
    destruct (Hok eq_refl) as (Hs & Hf & _).
    destruct (for_each_item_outcomes _ _ _ _ Hus)
      as (handled & items & evs1' & _ & Hall & Hev1' & Hwr & Hout & Hcat & Hdone).
    rewrite Hev1 in Hev1'. apply app_inv_head in Hev1'. subst evs1'.
    rewrite (Hdone eq_refl) in Hall. rewrite iter_urls_yields in Hs, Hf, Hall.
    simpl in Hev1, Hout. rewrite <- app_assoc in Hev1. rewrite app_nil_r in Hout.
    pose proof (process_archive_item_outcome u w1) as Hitem.
    destruct (build_item u) as [e0|stac_item].
    + destruct Hitem as (evs2 & Hrun & Hw2 & Hs2). rewrite Hrun in Hu.
      injection Hu as <- <-. exists items, evs1, evs2. simpl.
      rewrite started_app, Hs, Hs2, app_nil_r.
      do 9 (split; [done|]). left. by repeat split.
    + destruct Hitem as (evs2 & Hrun & Hw2 & Hs2). rewrite Hrun in Hu.
      destruct (add_item_to_catlog stac_item (catalog w1)) as [store [e0|]] eqn:Hadd;
        simpl in Hu; [|discriminate].
      injection Hu as <- <-.
      exists items, evs1, (evs2 ++ [AddItemToCatlog (Item.id stac_item)]). simpl.
      rewrite !started_app, Hs, Hs2, written_app, Hw2. simpl.
      do 9 (split; [done|]). right. exists stac_item. by repeat split.
Qed.

(** C2 (as amended): [process_archive] raises [e] exactly when, after a run of
    items that were ingested, either the listing raises [e] or a stage of the
    next item does; it returns exactly when the listing stops without raising
    and every item it yielded was ingested. *)
Theorem process_archive_fails_iff (url : string) (w : World) :
  let w0 := record w [IterUrlsFromArchivePage url] [] in
  (forall e,
     (process_archive url w).2 = inl e <->
     exists us tl w1,
       iter_urls_from_archive_page url = yields us tl
       /\ for_each (yields us StopIteration) process_archive_item w0 = (w1, inr tt)
       /\ (tl = Raise e
           \/ exists u tl' w2, tl = Yield u tl' /\ process_archive_item u w1 = (w2, inl e)))
  /\ ((process_archive url w).2 = inr tt <->
      exists w1,
        iter_urls_from_archive_page url
          = yields (iter_urls (iter_urls_from_archive_page url)) StopIteration
        /\ for_each (yields (iter_urls (iter_urls_from_archive_page url)) StopIteration)
             process_archive_item w0 = (w1, inr tt)).
Proof.
  intros w0. split.
  - intros e. rewrite process_archive_unfold. apply for_each_fails_iff.
  - rewrite process_archive_unfold. apply for_each_returns_iff.
Qed.

(** C6: [process_archive] produces its per-item outcomes in exactly the order
    the listing yields the item URLs.  The items it builds come from an
    initial part of the listing, URL by URL; the lines on standard output are
    the lines of those items in that order, the writer is handed them in that
    order, and the catalog is what the writer made of them in that order.
    When [process_archive] returns, that initial part is the whole
    listing. *)
Theorem process_archive_in_listing_order (url : string) (w : World) :
  let listing := iter_urls (iter_urls_from_archive_page url) in
  let run := process_archive url w in
  exists handled items evs,
    events run.1 = events w ++ IterUrlsFromArchivePage url :: evs
    /\ handled `prefix_of` listing
    /\ Forall2 (fun u stac_item => build_item u = inr stac_item) handled items
    /\ written evs = Item.id <$> items
    /\ stdout run.1 = stdout w ++ concat (item_lines <$> items)
    /\ catalog run.1 = write_items items (catalog w)
    /\ started evs `prefix_of` listing
    /\ fetched evs `prefix_of` listing
    /\ (run.2 = inr tt ->
          handled = listing /\ started evs = listing /\ fetched evs = listing).
Proof.
  intros listing run. subst listing run. rewrite process_archive_unfold.
  destruct (for_each _ _ _) as [w' r] eqn:Hrun.
  destruct (for_each_item_trace _ _ _ _ Hrun) as (evs & Hev & Hs & Hf & _ & Hok).
  destruct (for_each_item_outcomes _ _ _ _ Hrun)
    as (handled & items & evs' & Hp & Hall & Hev' & Hwr & Hout & Hcat & Hdone).
  rewrite Hev in Hev'. apply app_inv_head in Hev'. subst evs'.
  exists handled, items, evs. simpl in *.
  rewrite <- app_assoc in Hev. rewrite app_nil_r in Hout.
  do 8 (split; [done|]). intros Hr. destruct (Hok Hr) as (? & ? & _).
  by rewrite (Hdone Hr).
Qed.

(** C7: when the listing yields no item URL and does not raise,
    [process_archive] returns without an exception, having fetched, parsed and
    written nothing, printed nothing, and left the catalog as it was. *)
Theorem process_archive_empty_listing (url : string) (w : World) :
  iter_urls (iter_urls_from_archive_page url) = [] ->
  iter_raised (iter_urls_from_archive_page url) = None ->
  let run := process_archive url w in
  run.2 = inr tt
  /\ events run.1 = events w ++ [IterUrlsFromArchivePage url]
  /\ fetched (events run.1) = fetched (events w)
  /\ parsed (events run.1) = parsed (events w)
  /\ written (events run.1) = written (events w)
  /\ stdout run.1 = stdout w
  /\ catalog run.1 = catalog w.
Proof.
  intros Hurls Hraised run. subst run. rewrite process_archive_unfold.
  destruct (iter_urls_from_archive_page url); try discriminate.
  simpl. rewrite fetched_app, parsed_app, written_app. simpl.
  by rewrite !app_nil_r.
Qed.
End Archive.

(** ** The archive trigger *)

Section Trigger.
Context `{Parser} `{GatherReports} `{DbUtil}.

(** Serving [POST /parse/archive]: the response goes out, then the queued
    [process_archive] runs. *)
Lemma post_archive_unfold (request_body : URLPostRequest.t) (w : World) :
  let url := URLPostRequest.url request_body in
  let run := process_archive url (record w [ResponseSent (acknowledgment url)] []) in
  post_archive request_body w =
    mkServed (Http200 (acknowledgment url)) run.1
      (match run.2 with inl e => Some e | inr _ => None end).
Proof.
  intros url run. subst run url.
  unfold post_archive, Archive.parse_report, add_task, ret, emit. simpl.
  fold (acknowledgment (URLPostRequest.url request_body)). unfold bind, record.
  rewrite app_nil_r.
  by destruct (process_archive _ _) as [w3 [e|[]]].
Qed.

(** C5: the handler of [POST /parse/archive] only queues [process_archive] and
    returns the acknowledgment: when it returns, no collaborator has been
    called, nothing is printed and the catalog is untouched.  The response
    that goes out is the acknowledgment alone, and every step of the ingestion
    comes after it in the trace. *)
Theorem archive_acknowledged_before_ingestion
    (request_body : URLPostRequest.t) (background_tasks : BackgroundTasks) (w : World) :
  let url := URLPostRequest.url request_body in
  let served := post_archive request_body w in
  Archive.parse_report request_body background_tasks w
    = (w, inr (background_tasks ++ [ProcessArchive url], acknowledgment url))
  /\ response served = Http200 (acknowledgment url)
  /\ world_after served
      = (process_archive url (record w [ResponseSent (acknowledgment url)] [])).1
  /\ exists evs,
      events (world_after served)
        = events w ++ ResponseSent (acknowledgment url) :: IterUrlsFromArchivePage url :: evs.
Proof.
  intros url served. subst served url. split; [reflexivity|].
  rewrite post_archive_unfold. simpl. split; [reflexivity|]. split; [reflexivity|].
  destruct (process_archive_events (URLPostRequest.url request_body)
              (record w [ResponseSent (acknowledgment (URLPostRequest.url request_body))] []))
    as (evs & Hev).
  exists evs. rewrite Hev. simpl. by rewrite <- app_assoc.
Qed.

(** C10: whatever string is sent as [url], [POST /parse/archive] answers 200
    with [{"detail": "Processing message archive {url}!"}], the string put in
    as it came; nothing inspects it first, and an exception of the ingestion
    it starts ends up with the server, not in the response. *)
Theorem archive_trigger_always_acknowledges (url : string) (w : World) :
  let served := post_archive (URLPostRequest.mk url) w in
  response served
    = Http200 [("detail", "Processing message archive " +:+ url +:+ "!")]
  /\ task_error served
      = match (process_archive url (record w [ResponseSent (acknowledgment url)] [])).2 with
        | inl e => Some e
        | inr _ => None
        end.
Proof. intros served. subst served. by rewrite post_archive_unfold. Qed.
End Trigger.

(** ** Concrete runs against the small remote *)

Section Runs.
Import Demo.
#[local] Existing Instances demo_parser demo_gather_reports demo_db_util.

Example str_dict_two :
  str_dict [("platform", "'P3'"); ("samples", "3")] = "{'platform': 'P3', 'samples': 3}".
Proof. reflexivity. Qed.

Example ingest_a :
  (File.parse_report (URLPostRequest.mk a) w0).2
    = inr [("stac_item_id", "a.dat");
           ("detail", "STAC item added to the catalog successfully.")].
Proof. vm_compute. reflexivity. Qed.

Example archive_stdout :
  stdout (process_archive archive w0).1
    = ["STAC Item ID: a.dat"; "STAC Item Properties: {'source': 'https://x/a.dat'}"].
Proof. vm_compute. reflexivity. Qed.

(** C1 fails as worded: of the three URLs the archive lists only [b.dat] is
    malformed, yet [c.dat] is never started and one record, not two, is in the
    catalog afterwards. *)
Lemma process_archive_abandons_later_items :
  iter_urls_from_archive_page archive = yields [a; b; c] StopIteration
  /\ (exists ia ic, build_item a = inr ia /\ build_item c = inr ic)
  /\ build_item b = inl malformed_b
  /\ started (events (process_archive archive w0).1) = [a; b]
  /\ size (catalog (process_archive archive w0).1) = 1
  /\ ~ archive_items_isolated.
Proof.
  split; [reflexivity|]. split; [by eexists _, _|]. split; [reflexivity|].
  split; [vm_compute; reflexivity|]. split; [vm_compute; reflexivity|].
  intros Hclaim. destruct (Hclaim archive w0 [a; b; c] eq_refl) as (evs & Hev & Hs).
  change (events w0 ++ evs) with evs in Hev. rewrite <- Hev in Hs.
  vm_compute in Hs. discriminate.
Qed.

Lemma process_archive_stops_at_first_failure_witness :
  process_archive archive w0 = (after_b, inl malformed_b)
  /\ started (events after_b) = [a; b].
Proof.
  destruct (process_archive_stops_at_first_failure archive w0 after_a after_b
              [a] b (Yield c StopIteration) malformed_b) as [Hrun _].
  - vm_compute. reflexivity.
  - vm_compute. reflexivity.
  - vm_compute. reflexivity.
  - split; [exact Hrun|]. vm_compute. reflexivity.
Defined.

(** C2 fails as worded: the listing of the archive is resolved without an
    error, and [process_archive] raises all the same. *)
Lemma process_archive_fails_on_item_error :
  iter_raised (iter_urls_from_archive_page archive) = None
  /\ (process_archive archive w0).2 = inl malformed_b
  /\ ~ archive_fails_only_on_listing.
Proof.
  split; [reflexivity|]. split; [vm_compute; reflexivity|].
  intros Hclaim. destruct (proj1 (Hclaim archive w0)) as [e He].
  - exists malformed_b. vm_compute. reflexivity.
  - vm_compute in He. discriminate.
Qed.

(** C3 fails as worded: the fetch of a URL that is not there raises, and the
    exception leaves the handler; the caller gets the 500 of that exception,
    not an outcome. *)
Lemma parse_report_error_escapes :
  (File.parse_report (URLPostRequest.mk missing) w0).2 = inl (FetchError missing)
  /\ response (post_file (URLPostRequest.mk missing) w0) = Http500 (FetchError missing)
  /\ ~ stage_errors_are_returned.
Proof.
  split; [vm_compute; reflexivity|]. split; [vm_compute; reflexivity|].
  intros Hclaim. destruct (Hclaim (URLPostRequest.mk missing) w0) as [outcome Hout].
  vm_compute in Hout. discriminate.
Qed.

Lemma parse_report_no_partial_write_witness :
  catalog (File.parse_report (URLPostRequest.mk b) w0).1 = catalog w0
  /\ exists stac_item, build_item a = inr stac_item.
Proof.
  split.
  - apply (proj1 (parse_report_no_partial_write (URLPostRequest.mk b) w0) malformed_b).
    vm_compute. reflexivity.
  - destruct (proj2 (parse_report_no_partial_write (URLPostRequest.mk a) w0))
      as (stac_item & Hitem & _).
    + vm_compute. discriminate.
    + by exists stac_item.
Defined.

Lemma process_archive_in_listing_order_witness :
  exists handled items evs,
    events (process_archive mirror w0).1 = IterUrlsFromArchivePage mirror :: evs
    /\ handled = [c; a]
    /\ written evs = Item.id <$> items
    /\ stdout (process_archive mirror w0).1 = concat (item_lines <$> items)
    /\ stdout (process_archive mirror w0).1
       = ["STAC Item ID: c.dat"; "STAC Item Properties: {'source': 'https://x/c.dat'}";
          "STAC Item ID: a.dat"; "STAC Item Properties: {'source': 'https://x/a.dat'}"].
Proof.
  destruct (process_archive_in_listing_order mirror w0)
    as (handled & items & evs & Hev & _ & _ & Hwr & Hout & _ & _ & _ & Hok).
  exists handled, items, evs. split; [exact Hev|].
  destruct Hok as (Hh & _); [vm_compute; reflexivity|].
  split; [exact Hh|]. split; [exact Hwr|]. split; [exact Hout|].
  vm_compute. reflexivity.
Defined.

Lemma process_archive_empty_listing_witness :
  (process_archive empty_archive w0).2 = inr tt
  /\ catalog (process_archive empty_archive w0).1 = catalog w0.
Proof.
  destruct (process_archive_empty_listing empty_archive w0) as (Hr & _ & _ & _ & _ & _ & Hc).
  - vm_compute. reflexivity.
  - vm_compute. reflexivity.
  - by split.
Defined.

(** The trigger answers 200 while the ingestion it started raised, and it
    takes any string for a URL. *)
Example archive_trigger_demo :
  response (post_archive (URLPostRequest.mk archive) w0)
    = Http200 [("detail", "Processing message archive https://x/archive/!")]
  /\ task_error (post_archive (URLPostRequest.mk archive) w0) = Some malformed_b
  /\ response (post_archive (URLPostRequest.mk "not a url") w0)
      = Http200 [("detail", "Processing message archive not a url!")].
Proof. repeat split; vm_compute; reflexivity. Qed.
End Runs.

(** ** Assembling the application *)

Lemma split_nonempty sep s : split sep s <> [].
Proof.
  destruct s as [|ch rest]; simpl; [done|].
  case_bool_decide; [done|]. by destruct (split sep rest).
Qed.

Lemma split_piece sep piece :
  contains sep piece = false -> split sep piece = [piece].
Proof.
  induction piece as [|ch rest IH]; simpl; [done|].
  intros [Hch Hrest]%orb_false_elim. apply bool_decide_eq_false in Hch.
  rewrite bool_decide_eq_false_2 by done. by rewrite IH.
Qed.

Lemma split_piece_then sep piece rest :
  contains sep piece = false ->
  split sep (piece +:+ String sep rest) = piece :: split sep rest.
Proof.
  induction piece as [|ch more IH]; simpl.
  - intros _. by rewrite bool_decide_eq_true_2.
  - intros [Hch Hmore]%orb_false_elim. apply bool_decide_eq_false in Hch.
    rewrite bool_decide_eq_false_2 by done. by rewrite IH.
Qed.

Lemma split_join_pieces sep pieces :
  pieces <> [] ->
  Forall (fun piece => contains sep piece = false) pieces ->
  split sep (join sep pieces) = pieces.
Proof.
  induction pieces as [|piece pieces IH]; [done|]. intros _ Hall.
  apply Forall_cons in Hall as [Hpiece Hall].
  destruct pieces as [|next pieces]; simpl.
  - by apply split_piece.
  - rewrite split_piece_then by done. f_equal. by apply IH.
Qed.

(** X3: the pieces [split] cuts a string into hold no separator, there is
    always at least one, and joined by the separator they give the string
    back: [ENABLED_EXTENSIONS] is read as it stands, spaces and empty names
    included. *)
Theorem join_split (sep : Ascii.ascii) (s : string) :
  join sep (split sep s) = s
  /\ Forall (fun piece => contains sep piece = false) (split sep s)
  /\ split sep s <> [].
Proof.
  split; [|split; [|apply split_nonempty]].
  - induction s as [|ch rest IH]; simpl; [done|].
    case_bool_decide as Hch.
    + subst ch. pose proof (split_nonempty sep rest).
      destruct (split sep rest) as [|piece pieces] eqn:Hs; [done|].
      simpl in *. by rewrite IH.
    + pose proof (split_nonempty sep rest).
      destruct (split sep rest) as [|piece pieces] eqn:Hs; [done|].
      destruct pieces; simpl in *; by rewrite <- IH.
  - induction s as [|ch rest IH]; simpl; [by repeat constructor|].
    case_bool_decide as Hch; [by constructor|].
    destruct (split sep rest) as [|piece pieces]; [repeat constructor|].
    + simpl. by rewrite bool_decide_eq_false_2.
    + apply Forall_cons in IH as [Hpiece Hall]. constructor; [|done].
      simpl. by rewrite bool_decide_eq_false_2.
Qed.

Lemma elem_of_select (m : list (string * Extension)) (enabled : gset string) (ext : Extension) :
  ext ∈ select m enabled <-> exists key, (key, ext) ∈ m /\ key ∈ enabled.
Proof.
  unfold select. rewrite list_elem_of_fmap. split.
  - intros ([key ext'] & -> & [Hin Hm]%list_elem_of_filter). by exists key.
  - intros (key & Hm & Hin). exists (key, ext). split; [done|].
    by apply list_elem_of_filter.
Qed.

Lemma select_agree (m : list (string * Extension)) (enabled1 enabled2 : gset string) :
  (forall key, key ∈ m.*1 -> key ∈ enabled1 <-> key ∈ enabled2) ->
  select m enabled1 = select m enabled2.
Proof.
  unfold select. induction m as [|[key ext] m IH]; [done|]. intros Hagree.
  assert (key ∈ enabled1 <-> key ∈ enabled2) as Hkey.
  { apply Hagree. csimpl. apply elem_of_cons. by left. }
  assert (forall k, k ∈ m.*1 -> k ∈ enabled1 <-> k ∈ enabled2) as Hrest.
  { intros k Hk. apply Hagree. csimpl. apply elem_of_cons. by right. }
  specialize (IH Hrest). rewrite !filter_cons. simpl.
  destruct (decide (key ∈ enabled1)), (decide (key ∈ enabled2)); csimpl;
    first [tauto | by rewrite IH].
Qed.

Lemma select_length (m : list (string * Extension)) (enabled : gset string) :
  length (select m enabled) = length (filter (fun key => key ∈ enabled) m.*1).
Proof.
  unfold select. induction m as [|[key ext] m IH]; [done|].
  csimpl. rewrite !filter_cons. simpl.
  destruct (decide (key ∈ enabled)); simpl; by rewrite <- IH, ?length_fmap.
Qed.

Lemma select_all (m : list (string * Extension)) (enabled : gset string) :
  (forall key, key ∈ m.*1 -> key ∈ enabled) -> select m enabled = m.*2.
Proof.
  unfold select. induction m as [|[key ext] m IH]; [done|]. intros Hall.
  rewrite filter_cons. simpl.
  rewrite decide_True by (apply Hall; csimpl; apply elem_of_cons; by left).
  csimpl. f_equal. apply IH. intros k Hk. apply Hall. csimpl. apply elem_of_cons. by right.
Qed.

(** [application_extensions] in one piece. *)
Lemma application_extensions_parts (environ : gmap string string) :
  application_extensions environ =
    (if with_transactions environ then [TransactionExtension; BulkTransactionExtension] else [])
    ++ search_extensions environ ++ itm_col_extensions environ
    ++ (if bool_decide ("collection_search" ∈ enabled_extensions environ)
        then [CollectionSearchExtension (cs_extensions environ)] else []).
Proof.
  unfold application_extensions.
  destruct (with_transactions environ), (itm_col_extensions environ),
    (bool_decide _); simpl; rewrite <- ?app_assoc, ?app_nil_r; reflexivity.
Qed.

(** Refute that an extension stands in one of the maps. *)
Ltac not_in_map H :=
  repeat (apply elem_of_cons in H as [H|H]; [discriminate H|]);
  by apply elem_of_nil in H.

Lemma join_empty sep names : join sep names = EmptyString -> names = [] \/ names = [EmptyString].
Proof.
  destruct names as [|name [|next names]]; simpl; [by left| |].
  - intros ->. by right.
  - by destruct name.
Qed.

Section AssemblyFacts.
Variable environ : gmap string string.

(** X1: with [ENABLED_EXTENSIONS] unset, or set to the empty string, every
    extension of the three maps is enabled, collection search included: the
    application gets all of them, in the order search, item collection,
    collection search, after the two transaction extensions if those are
    on. *)
Theorem all_extensions_by_default :
  environ !! "ENABLED_EXTENSIONS" = None \/ environ !! "ENABLED_EXTENSIONS" = Some EmptyString ->
  enabled_extensions environ = all_extensions
  /\ application_extensions environ =
      (if with_transactions environ
       then [TransactionExtension; BulkTransactionExtension] else [])
      ++ search_extensions_map.*2 ++ itm_col_extensions_map.*2
      ++ [CollectionSearchExtension cs_extensions_map.*2]
  /\ post_request_model environ = create_post_request_model search_extensions_map.*2
  /\ items_get_request_model environ
      = create_request_model "ItemCollectionUri" itm_col_extensions_map.*2 "GET"
  /\ collections_get_request_model environ = CollectionSearchGET cs_extensions_map.*2.
Proof.
  intros Hunset.
  assert (enabled_extensions environ = all_extensions) as Hall.
  { unfold enabled_extensions. by destruct Hunset as [-> | ->]. }
  split; [done|]. rewrite application_extensions_parts.
  unfold post_request_model, items_get_request_model, collections_get_request_model,
    search_extensions, itm_col_extensions, cs_extensions. rewrite Hall.
  assert (select search_extensions_map all_extensions = search_extensions_map.*2) as ->
    by (vm_compute; reflexivity).
  assert (select itm_col_extensions_map all_extensions = itm_col_extensions_map.*2) as ->
    by (vm_compute; reflexivity).
  assert (select cs_extensions_map all_extensions = cs_extensions_map.*2) as ->
    by (vm_compute; reflexivity).
  assert (bool_decide ("collection_search" ∈ all_extensions) = true) as ->
    by (vm_compute; reflexivity).
  done.
Qed.

(** X2: a non-empty [ENABLED_EXTENSIONS] that lists names with commas between
    them enables exactly those names, taken as they are written. *)
Theorem enabled_extensions_are_the_listed_names (names : list string) :
  names <> [] -> names <> [EmptyString] ->
  Forall (fun name => contains comma name = false) names ->
  environ !! "ENABLED_EXTENSIONS" = Some (join comma names) ->
  enabled_extensions environ = list_to_set names
  /\ forall name, name ∈ enabled_extensions environ <-> name ∈ names.
Proof.
  intros Hne Hne' Hnames Henv.
  assert (enabled_extensions environ = list_to_set names) as Hen.
  { unfold enabled_extensions. rewrite Henv. case_bool_decide as Hempty.
    - by apply join_empty in Hempty as [?|?].
    - by rewrite split_join_pieces. }
  split; [done|]. intros name. rewrite Hen. apply elem_of_list_to_set.
Qed.

(** X4: the two transaction extensions are in the application exactly when
    [ENABLE_TRANSACTIONS_EXTENSIONS] says so, which is also exactly when
    [lifespan] opens the write connection pool; what [ENABLED_EXTENSIONS]
    holds plays no part in it. *)
Theorem transactions_follow_their_own_variable :
  (TransactionExtension ∈ application_extensions environ <-> with_transactions environ = true)
  /\ (BulkTransactionExtension ∈ application_extensions environ
      <-> with_transactions environ = true)
  /\ (connect_to_db true ∈ (lifespan environ).1
      <-> TransactionExtension ∈ application_extensions environ)
  /\ forall value,
      with_transactions (<["ENABLED_EXTENSIONS" := value]> environ) = with_transactions environ.
Proof.
  assert (forall ext, ext = TransactionExtension \/ ext = BulkTransactionExtension ->
            ext ∈ application_extensions environ <-> with_transactions environ = true) as Hboth.
  { intros ext Hext. rewrite application_extensions_parts, !elem_of_app. split.
    - intros [Htx|[Hin|[Hin|Hin]]].
      + destruct (with_transactions environ); [done|by apply elem_of_nil in Htx].
      + apply elem_of_select in Hin as (key & Hm & _).
        destruct Hext as [-> | ->]; not_in_map Hm.
      + apply elem_of_select in Hin as (key & Hm & _).
        destruct Hext as [-> | ->]; not_in_map Hm.
      + case_bool_decide; [|by apply elem_of_nil in Hin].
        apply list_elem_of_singleton in Hin. by destruct Hext as [-> | ->].
    - intros ->. left. destruct Hext as [-> | ->]; repeat constructor. }
  split; [apply Hboth; by left|]. split; [apply Hboth; by right|]. split.
  - rewrite (Hboth TransactionExtension) by by left. simpl.
    rewrite list_elem_of_singleton. split; [by intros [= <-]|by intros ->].
  - intros value. unfold with_transactions. by rewrite lookup_insert_ne.
Qed.

(** X5: nothing that only collection search is built from (free text,
    offset pagination, the collection filter, the [COLLECTIONS] conformance
    classes) is ever registered on its own: it can only sit inside the one
    [CollectionSearchExtension], which is there exactly when
    ["collection_search"] is enabled.  Without that name, [/collections]
    keeps the empty request model, whatever else is enabled. *)
Theorem collection_search_gates_its_extensions :
  (forall ext, ext ∈ application_extensions environ -> ~ collection_only ext)
  /\ (forall ext, ext ∈ application_extensions environ -> is_collection_search ext ->
        "collection_search" ∈ enabled_extensions environ
        /\ ext = CollectionSearchExtension (cs_extensions environ))
  /\ ("collection_search" ∈ enabled_extensions environ ->
        CollectionSearchExtension (cs_extensions environ) ∈ application_extensions environ)
  /\ ("collection_search" ∉ enabled_extensions environ ->
        collections_get_request_model environ = EmptyRequest
        /\ application_extensions environ =
            (if with_transactions environ
             then [TransactionExtension; BulkTransactionExtension] else [])
            ++ search_extensions environ ++ itm_col_extensions environ).
Proof.
  rewrite application_extensions_parts. unfold collections_get_request_model.
  split; [|split; [|split]].
  - intros ext. rewrite !elem_of_app. intros [Htx|[Hin|[Hin|Hin]]] Honly.
    + destruct (with_transactions environ); [|by apply elem_of_nil in Htx].
      apply elem_of_cons in Htx as [->|Htx]; [done|].
      apply list_elem_of_singleton in Htx as ->. done.
    + apply elem_of_select in Hin as (key & Hm & _).
      repeat (apply elem_of_cons in Hm as [[= -> ->]|Hm]; [destruct Honly|]).
      by apply elem_of_nil in Hm.
    + apply elem_of_select in Hin as (key & Hm & _).
      repeat (apply elem_of_cons in Hm as [[= -> ->]|Hm]; [destruct Honly|]).
      by apply elem_of_nil in Hm.
    + case_bool_decide; [|by apply elem_of_nil in Hin].
      by apply list_elem_of_singleton in Hin as ->.
  - intros ext. rewrite !elem_of_app. intros [Htx|[Hin|[Hin|Hin]]] Hcs.
    + destruct (with_transactions environ); [|by apply elem_of_nil in Htx].
      apply elem_of_cons in Htx as [->|Htx]; [done|].
      apply list_elem_of_singleton in Htx as ->. done.
    + apply elem_of_select in Hin as (key & Hm & _).
      repeat (apply elem_of_cons in Hm as [[= -> ->]|Hm]; [destruct Hcs|]).
      by apply elem_of_nil in Hm.
    + apply elem_of_select in Hin as (key & Hm & _).
      repeat (apply elem_of_cons in Hm as [[= -> ->]|Hm]; [destruct Hcs|]).
      by apply elem_of_nil in Hm.
    + case_bool_decide; [|by apply elem_of_nil in Hin].
      by apply list_elem_of_singleton in Hin as ->.
  - intros Hin. rewrite bool_decide_eq_true_2 by done. rewrite !elem_of_app.
    right. right. right. by apply list_elem_of_singleton.
  - intros Hnot. rewrite bool_decide_eq_false_2 by done. by rewrite app_nil_r.
Qed.

(** X7: a name enables its search extension and its item collection
    extension together, so the two lists are equally long and
    [/collections/{id}/items] keeps the plain [ItemCollectionUri] model
    exactly when [/search] has no extension; the application never holds more
    than thirteen extensions. *)
Theorem search_and_item_extensions_go_together :
  length (search_extensions environ) = length (itm_col_extensions environ)
  /\ (items_get_request_model environ = ItemCollectionUri <-> search_extensions environ = [])
  /\ length (application_extensions environ)
      = (if with_transactions environ then 2 else 0)
        + 2 * length (search_extensions environ)
        + (if bool_decide ("collection_search" ∈ enabled_extensions environ) then 1 else 0)
  /\ length (application_extensions environ) <= 13.
Proof.
  assert (length (search_extensions environ) = length (itm_col_extensions environ)) as Hlen.
  { unfold search_extensions, itm_col_extensions. by rewrite !select_length. }
  assert (length (search_extensions environ) <= 5) as Hfive.
  { unfold search_extensions. rewrite select_length.
    etrans; [apply length_filter|]. done. }
  split; [done|]. split; [|split].
  - unfold items_get_request_model.
    destruct (itm_col_extensions environ), (search_extensions environ); simpl in *;
      split; intros; done.
  - rewrite application_extensions_parts, !length_app, <- Hlen.
    destruct (with_transactions environ), (bool_decide _); simpl; lia.
  - rewrite application_extensions_parts, !length_app, <- Hlen.
    destruct (with_transactions environ), (bool_decide _); simpl; lia.
Qed.
End AssemblyFacts.

(** X6: names in [ENABLED_EXTENSIONS] that are none of the seven known ones
    are passed over without an error and change nothing: two environments
    that agree on the known names and on the transactions switch assemble the
    same application. *)
Theorem only_known_names_matter (environ1 environ2 : gmap string string) :
  (forall name, name ∈ known_names ->
     name ∈ enabled_extensions environ1 <-> name ∈ enabled_extensions environ2) ->
  with_transactions environ1 = with_transactions environ2 ->
  application_extensions environ1 = application_extensions environ2
  /\ post_request_model environ1 = post_request_model environ2
  /\ get_request_model environ1 = get_request_model environ2
  /\ items_get_request_model environ1 = items_get_request_model environ2
  /\ collections_get_request_model environ1 = collections_get_request_model environ2.
Proof.
  intros Hagree Htx.
  assert (search_extensions environ1 = search_extensions environ2) as Hs.
  { apply select_agree. intros key Hkey. apply Hagree. unfold known_names.
    apply elem_of_app. by left. }
  assert (itm_col_extensions environ1 = itm_col_extensions environ2) as Hi.
  { apply select_agree. intros key Hkey. apply Hagree. unfold known_names.
    apply elem_of_app. by left. }
  assert (cs_extensions environ1 = cs_extensions environ2) as Hc.
  { apply select_agree. intros key Hkey. apply Hagree.
    repeat (apply elem_of_cons in Hkey as [->|Hkey]; [compute_done|]).
    by apply elem_of_nil in Hkey. }
  assert (bool_decide ("collection_search" ∈ enabled_extensions environ1)
          = bool_decide ("collection_search" ∈ enabled_extensions environ2)) as Hb.
  { apply bool_decide_ext, Hagree. compute_done. }
  rewrite !application_extensions_parts.
  unfold post_request_model, get_request_model, items_get_request_model,
    collections_get_request_model.
  by rewrite Hs, Hi, Hc, Hb, Htx.
Qed.

(** ** More on the two ingestion paths *)

Section Paths.
Context `{Parser} `{GatherReports} `{DbUtil}.

(** The loop body of [process_archive] and the handler of [POST /parse/file]
    leave the same world and raise the same exceptions. *)
Lemma parse_report_as_item (u : string) (w : World) :
  (File.parse_report (URLPostRequest.mk u) w).1 = (process_archive_item u w).1
  /\ (forall e, (File.parse_report (URLPostRequest.mk u) w).2 = inl e
                <-> (process_archive_item u w).2 = inl e)
  /\ ((exists response, (File.parse_report (URLPostRequest.mk u) w).2 = inr response)
      <-> (process_archive_item u w).2 = inr tt).
Proof.
  run_stages; (split; [reflexivity|]);
    (split; [intros e'; split; first [by intros [= ->] | done]|]);
    split; first [ by intros [? ?] | done | by eexists ].
Qed.

(** X8: an archive whose listing holds the one URL [u] is ingested as
    [POST /parse/file] ingests [u]: the same calls, the same printed lines,
    the same catalog, and the same exception if there is one. *)
Theorem single_item_archive_is_file_ingestion (url u : string) (w : World) :
  iter_urls_from_archive_page url = Yield u StopIteration ->
  let archive_run := process_archive url w in
  let file_run :=
    File.parse_report (URLPostRequest.mk u) (record w [IterUrlsFromArchivePage url] []) in
  archive_run.1 = file_run.1
  /\ (forall e, archive_run.2 = inl e <-> file_run.2 = inl e)
  /\ (archive_run.2 = inr tt <-> exists response, file_run.2 = inr response).
Proof.
  intros Hit archive_run file_run. subst archive_run file_run.
  rewrite process_archive_unfold, Hit. simpl. unfold bind.
  destruct (parse_report_as_item u (record w [IterUrlsFromArchivePage url] []))
    as (Hw & Hraise & Hret).
  destruct (process_archive_item u _) as [w1 [e1|[]]]; simpl in *.
  - split; [done|]. split; [intros e; by rewrite Hraise|]. by rewrite Hret.
  - split; [done|]. split; [intros e; by rewrite Hraise|]. by rewrite Hret.
Qed.

(** X9: the handler prints the item's identifier and properties before it
    calls the writer, so when the writer raises, the two lines are on
    standard output although the request fails. *)
Theorem parse_report_prints_before_it_writes
    (request_body : URLPostRequest.t) (w : World) (stac_item : Item.t) (e : Exception) :
  build_item (URLPostRequest.url request_body) = inr stac_item ->
  (add_item_to_catlog stac_item (catalog w)).2 = Some e ->
  let run := File.parse_report request_body w in
  run.2 = inl e
  /\ stdout run.1 = stdout w ++ item_lines stac_item
  /\ catalog run.1 = (add_item_to_catlog stac_item (catalog w)).1.
Proof.
  intros Hitem Hraise run. subst run.
  pose proof (parse_report_build_item request_body w) as Hrun.
  rewrite Hitem in Hrun. destruct Hrun as (evs & -> & _). simpl. by rewrite Hraise.
Qed.

(** X11: [POST /parse/file] returns exactly when fetch, parse and convert
    give an item and the writer takes it without raising; the
    [stac_item_id] it returns is that item's, and the catalog it leaves is
    the one the writer left. *)
Theorem parse_report_returns_iff
    (request_body : URLPostRequest.t) (w : World) (response : Response) :
  let run := File.parse_report request_body w in
  (run.2 = inr response <->
   exists stac_item,
     build_item (URLPostRequest.url request_body) = inr stac_item
     /\ (add_item_to_catlog stac_item (catalog w)).2 = None
     /\ response = file_response stac_item)
  /\ (forall stac_item,
        build_item (URLPostRequest.url request_body) = inr stac_item ->
        catalog run.1 = (add_item_to_catlog stac_item (catalog w)).1
        /\ written (events run.1) = written (events w) ++ [Item.id stac_item]).
Proof.
  intros run. subst run.
  pose proof (parse_report_build_item request_body w) as Hrun.
  destruct (build_item _) as [e|stac_item].
  - destruct Hrun as (evs & -> & _). split; [|done]. simpl. split; [done|].
    by intros (? & ? & _).
  - destruct Hrun as (evs & -> & Hw). simpl. split.
    + destruct (add_item_to_catlog stac_item (catalog w)).2 as [e|] eqn:Hraise; split.
      * done.
      * intros (? & [= <-] & Hnone & _). by rewrite Hraise in Hnone.
      * intros [= <-]. by exists stac_item.
      * by intros (? & [= <-] & _ & ->).
    + intros ? [= <-]. split; [done|]. by rewrite !written_app, Hw.
Qed.

Lemma process_archive_item_prints (u : string) (w : World) :
  exists items evs,
    events (process_archive_item u w).1 = events w ++ evs
    /\ written evs = Item.id <$> items
    /\ stdout (process_archive_item u w).1 = stdout w ++ concat (item_lines <$> items).
Proof.
  rewrite process_archive_item_stages.
  stage_cases;
    first [ eexists [_], _; split; [reflexivity|]; split; reflexivity
          | exists []; eexists; split; [reflexivity|]; split;
            [reflexivity|simpl; by rewrite app_nil_r] ].
Qed.

(** X10: whatever the listing and wherever it stops, [process_archive] has
    printed the two lines of exactly the items it handed to the writer, in
    that order: standard output and the calls of the writer tell the same
    story, a last item whose write raised included. *)
Theorem process_archive_prints_what_it_writes (url : string) (w : World) :
  let run := process_archive url w in
  exists items evs,
    events run.1 = events w ++ evs
    /\ written evs = Item.id <$> items
    /\ stdout run.1 = stdout w ++ concat (item_lines <$> items)
    /\ length (stdout run.1) = length (stdout w) + 2 * length (written evs).
Proof.
  intros run. subst run. rewrite process_archive_unfold.
  assert (forall it w0, exists items evs,
            events (for_each it process_archive_item w0).1 = events w0 ++ evs
            /\ written evs = Item.id <$> items
            /\ stdout (for_each it process_archive_item w0).1
               = stdout w0 ++ concat (item_lines <$> items)) as Hloop.
  { induction it as [|e|u rest IH]; intros w0; simpl.
    - exists [], []. by rewrite !app_nil_r.
    - exists [], []. by rewrite !app_nil_r.
    - unfold bind.
      destruct (process_archive_item_prints u w0) as (items1 & evs1 & Hev1 & Hw1 & Hout1).
      destruct (process_archive_item u w0) as [w1 [e|[]]]; simpl in *.
      + by exists items1, evs1.
      + destruct (IH w1) as (items2 & evs2 & Hev2 & Hw2 & Hout2).
        exists (items1 ++ items2), (evs1 ++ evs2).
        rewrite Hev2, Hev1, Hout2, Hout1, written_app, Hw1, Hw2, !fmap_app, concat_app.
        by rewrite !app_assoc. }
  destruct (Hloop (iter_urls_from_archive_page url) (record w [IterUrlsFromArchivePage url] []))
    as (items & evs & Hev & Hw & Hout).
  exists items, (IterUrlsFromArchivePage url :: evs).
  simpl in Hev, Hout. rewrite app_nil_r in Hout. rewrite <- app_assoc in Hev.
  split; [done|]. split; [done|]. split; [done|].
  rewrite Hout, length_app. simpl. rewrite Hw, length_fmap. f_equal.
  clear. induction items as [|item items IH]; [done|].
  change (length (item_lines item ++ concat (item_lines <$> items)) = 2 * S (length items)).
  rewrite length_app, IH. simpl. lia.
Qed.
End Paths.

(** ** Concrete runs of the assembly and of the two paths *)

Example application_extensions_sort_only :
  application_extensions
    {["ENABLED_EXTENSIONS" := "sort,free_text"; "ENABLE_TRANSACTIONS_EXTENSIONS" := "TRUE"]}
  = [TransactionExtension; BulkTransactionExtension; SortExtension DEFAULT; SortExtension ITEMS].
Proof. vm_compute. reflexivity. Qed.

Example enabled_names_are_not_trimmed :
  search_extensions {["ENABLED_EXTENSIONS" := "query, sort"]} = [QueryExtension DEFAULT].
Proof. vm_compute. reflexivity. Qed.

Lemma all_extensions_by_default_witness :
  application_extensions ∅ =
    search_extensions_map.*2 ++ itm_col_extensions_map.*2
    ++ [CollectionSearchExtension cs_extensions_map.*2]
  /\ length (application_extensions ∅) = 11.
Proof.
  destruct (all_extensions_by_default ∅) as (_ & Happ & _).
  - left. reflexivity.
  - split; [exact Happ|]. vm_compute. reflexivity.
Defined.

Lemma enabled_extensions_are_the_listed_names_witness :
  enabled_extensions {["ENABLED_EXTENSIONS" := "sort,query"]} = list_to_set ["sort"; "query"].
Proof.
  apply (enabled_extensions_are_the_listed_names
           {["ENABLED_EXTENSIONS" := "sort,query"]} ["sort"; "query"]).
  - discriminate.
  - discriminate.
  - repeat constructor.
  - vm_compute. reflexivity.
Defined.

Lemma only_known_names_matter_witness :
  application_extensions {["ENABLED_EXTENSIONS" := "sort,bogus, query"]}
  = application_extensions {["ENABLED_EXTENSIONS" := "sort"]}.
Proof.
  apply (only_known_names_matter
           {["ENABLED_EXTENSIONS" := "sort,bogus, query"]} {["ENABLED_EXTENSIONS" := "sort"]}).
  - intros name Hname.
    repeat (apply elem_of_cons in Hname as [->|Hname]; [vm_compute; tauto|]).
    by apply elem_of_nil in Hname.
  - vm_compute. reflexivity.
Defined.

Lemma single_item_archive_is_file_ingestion_witness :
  catalog (@process_archive Demo.demo_parser DemoMore.single_archive_reports
             Demo.demo_db_util "https://x/one/" Demo.w0).1
  = {[ "a.dat" := DemoMore.item_a ]}.
Proof.
  destruct (@single_item_archive_is_file_ingestion Demo.demo_parser
              DemoMore.single_archive_reports Demo.demo_db_util
              "https://x/one/" Demo.a Demo.w0 eq_refl) as (Hworld & _).
  rewrite Hworld. vm_compute. reflexivity.
Defined.

Lemma parse_report_prints_before_it_writes_witness :
  let run := @File.parse_report Demo.demo_parser Demo.demo_gather_reports
               DemoMore.refusing_db_util (URLPostRequest.mk Demo.a) Demo.w0 in
  run.2 = inl (StorageError "a.dat")
  /\ stdout run.1
     = ["STAC Item ID: a.dat"; "STAC Item Properties: {'source': 'https://x/a.dat'}"]
  /\ catalog run.1 = ∅.
Proof.
  apply (@parse_report_prints_before_it_writes Demo.demo_parser Demo.demo_gather_reports
           DemoMore.refusing_db_util (URLPostRequest.mk Demo.a) Demo.w0 DemoMore.item_a
           (StorageError "a.dat")).
  - vm_compute. reflexivity.
  - vm_compute. reflexivity.
Defined.

Lemma select_mono (m : list (string * Extension)) (enabled1 enabled2 : gset string) :
  enabled1 ⊆ enabled2 -> select m enabled1 `sublist_of` select m enabled2.
Proof.
  intros Hsub. unfold select. induction m as [|[key ext] m IH]; [done|].
  rewrite !filter_cons. simpl.
  destruct (decide (key ∈ enabled1)) as [Hin|Hout].
  - rewrite decide_True by by apply Hsub. csimpl. by apply sublist_skip.
  - destruct (decide (key ∈ enabled2)); csimpl; [by apply sublist_cons|done].
Qed.

(** X12: enabling more names never drops an extension: when every name
    enabled in one environment is enabled in the other, the search, item
    collection and collection search extensions of the first are among those
    of the second, in the same order. *)
Theorem more_names_keep_the_extensions (environ1 environ2 : gmap string string) :
  enabled_extensions environ1 ⊆ enabled_extensions environ2 ->
  search_extensions environ1 `sublist_of` search_extensions environ2
  /\ itm_col_extensions environ1 `sublist_of` itm_col_extensions environ2
  /\ cs_extensions environ1 `sublist_of` cs_extensions environ2.
Proof.
  intros Hsub. split; [|split]; by apply select_mono.
Qed.

Lemma more_names_keep_the_extensions_witness :
  search_extensions {["ENABLED_EXTENSIONS" := "sort"]}
    `sublist_of` search_extensions {["ENABLED_EXTENSIONS" := "query,sort,fields"]}.
Proof.
  apply (more_names_keep_the_extensions
           {["ENABLED_EXTENSIONS" := "sort"]} {["ENABLED_EXTENSIONS" := "query,sort,fields"]}).
  assert (enabled_extensions {["ENABLED_EXTENSIONS" := "sort"]} = list_to_set ["sort"]) as ->
    by (vm_compute; reflexivity).
  assert (enabled_extensions {["ENABLED_EXTENSIONS" := "query,sort,fields"]}
          = list_to_set ["query"; "sort"; "fields"]) as -> by (vm_compute; reflexivity).
  intros name Hname. apply elem_of_list_to_set in Hname. apply elem_of_list_to_set.
  apply elem_of_cons in Hname as [->|Hname]; [|by apply elem_of_nil in Hname].
  repeat constructor.
Defined.

(** [repr] on keys that need quoting or escaping. *)
Example repr_plain_and_quotes :
  repr "source" = "'source'"
  /\ repr ("it" +:+ String single_quote "s")
     = String double_quote ("it" +:+ String single_quote "s" +:+ String double_quote "")
  /\ repr (String double_quote "a") = "'" +:+ String double_quote "a'"
  /\ repr ("a" +:+ String single_quote ("b" +:+ String double_quote "c"))
     = "'a\'b" +:+ String double_quote "c'".
Proof. repeat split; vm_compute; reflexivity. Qed.

Example repr_escapes :
  repr ("a" +:+ String backslash "b") = "'a\\b'"
  /\ repr (String (Ascii.ascii_of_nat 10) "") = "'\n'"
  /\ repr (String (Ascii.ascii_of_nat 9) "") = "'\t'"
  /\ repr (String (Ascii.ascii_of_nat 1) "") = "'\x01'"
  /\ repr (String (Ascii.ascii_of_nat 127) "") = "'\x7f'"
  /\ repr (String (Ascii.ascii_of_nat 31) "") = "'\x1f'".
Proof. repeat split; vm_compute; reflexivity. Qed.
